(** * tonal: pitch encoding, rendering and pitch algebra

    A shallow embedding of [dist/tonal.js].  JavaScript numbers are modelled
    by [Z]: every number the library computes from integer input is an
    integer, and the embedding follows the code on that integer fragment
    (no rounding, no distinction between [0] and [-0]).  Where the code
    would compute with [undefined] or reach [NaN], the functions below
    return [None] and say so.

    A pitch is the array [['tnl', fifths, octaves, direction]] of the
    source, cut to length 2, 3 or 4. *)

From Stdlib Require Import ZArith List Lia Bool.
From Stdlib Require Import Strings.String Strings.Ascii.
From Stdlib Require Import Numbers.DecimalString.
Import ListNotations.

Local Open Scope Z_scope.

(** ** 1. Pitches in array notation *)

(** [['tnl', f]], [['tnl', f, o]] and [['tnl', f, o, d]]. *)
Inductive pitch : Type :=
| PC (f : Z)
| NoteP (f o : Z)
| IvlP (f o d : Z).

Definition pcArr (f : Z) : pitch := PC f.
Definition noteArr (f o : Z) : pitch := NoteP f o.

(** [p[1]], and [p.length]. *)
Definition fifths (p : pitch) : Z :=
  match p with PC f | NoteP f _ | IvlP f _ _ => f end.

Definition arr_length (p : pitch) : Z :=
  match p with PC _ => 2 | NoteP _ _ => 3 | IvlP _ _ _ => 4 end.

(** [encDir = (n) => n < 0 ? -1 : 1] *)
Definition encDir (n : Z) : Z := if n <? 0 then -1 else 1.

(** [calcDir = (f, o) => encDir(7 * f + 12 * o)] *)
Definition calcDir (f o : Z) : Z := encDir (7 * f + 12 * o).

(** [ivlPitch = (f, o, d) => ['tnl', f, o, d || calcDir(f, o)]]; the third
    argument is optional, and a direction of [0] is falsy. *)
Definition ivlPitch (f o : Z) (d : option Z) : pitch :=
  IvlP f o (match d with
            | Some d' => if d' =? 0 then calcDir f o else d'
            | None => calcDir f o
            end).

Definition isPitchClass (p : pitch) : bool :=
  match p with PC _ => true | _ => false end.

Definition hasOct (p : pitch) : bool :=
  match p with PC _ => false | _ => true end.

Definition isNotePitch (p : pitch) : bool :=
  match p with NoteP _ _ => true | _ => false end.

Definition isIvlPitch (p : pitch) : bool :=
  match p with IvlP _ _ _ => true | _ => false end.

(** ** 2. Pitch encoding *)

Definition FIFTHS : list Z := [0; 2; 4; -1; 1; 3; 5].

(** Array indexing.  Every index the code uses is guarded to lie in
    [0..6], so the value given here for an index out of range (where
    JavaScript has [undefined]) is never read. *)
Definition idx (l : list Z) (i : Z) : Z :=
  if i <? 0 then 0 else nth (Z.to_nat i) l 0.

(** [encPC = (step, alt) => FIFTHS[step] + 7 * alt] *)
Definition encPC (step alt : Z) : Z := idx FIFTHS step + 7 * alt.

(** [fOcts = (f) => Math.floor(f * 7 / 12)] *)
Definition fOcts (f : Z) : Z := (f * 7) / 12.

Definition FIFTH_OCTS : list Z := map fOcts FIFTHS.

(** [encOct = (step, alt, oct) => oct - FIFTH_OCTS[step] - 4 * alt] *)
Definition encOct (step alt oct : Z) : Z := oct - idx FIFTH_OCTS step - 4 * alt.

(** [encode (step, alt, oct, dir)]: [oct] and [dir] are optional
    ([isNum] fails on [undefined]); [None] is the [null] result. *)
Definition encode (step alt : Z) (oct dir : option Z) : option pitch :=
  if (step <? 0) || (step >? 6) then None
  else
    let pc := encPC step alt in
    match oct with
    | None => Some (pcArr pc)
    | Some oct' =>
        let o := encOct step alt oct' in
        match dir with
        | None => Some (noteArr pc o)
        | Some dir' =>
            let d := encDir dir' in
            Some (ivlPitch (d * pc) (d * o) (Some d))
        end
    end.

(** ** 3. Pitch decoding *)

(** [unaltered (f)]: JavaScript's [%] truncates, hence [Z.rem]. *)
Definition unaltered (f : Z) : Z :=
  let i := Z.rem (f + 1) 7 in
  if i <? 0 then 7 + i else i.

Definition STEPS : list Z := [3; 0; 4; 1; 5; 2; 6].

Definition decodeStep (f : Z) : Z := idx STEPS (unaltered f).

(** [decodeAlt = (f) => Math.floor((f + 1) / 7)] *)
Definition decodeAlt (f : Z) : Z := (f + 1) / 7.

(** The object [{ step, alt, oct, dir }]; [None] is [null]. *)
Record props : Type := mkProps {
  step : Z;
  alt : Z;
  oct : option Z;
  dir : option Z
}.

(** [p[3] || null] *)
Definition dir_or_null (p : pitch) : option Z :=
  match p with
  | IvlP _ _ d => if d =? 0 then None else Some d
  | _ => None
  end.

Definition decode (p : pitch) : props :=
  let s := decodeStep (fifths p) in
  let a := decodeAlt (fifths p) in
  let o := match p with
           | PC _ => None
           | NoteP _ o' | IvlP _ o' _ => Some (o' + 4 * a + idx FIFTH_OCTS s)
           end in
  mkProps s a o (dir_or_null p).

(** ** 4. Values, strings and the parsing collaborators *)

Local Open Scope string_scope.
Local Open Scope Z_scope.

(** The JavaScript values the library is called with: [null], [undefined],
    booleans, integer numbers, strings and pitch arrays. *)
Inductive value : Type :=
| VNull
| VUndef
| VBool (b : bool)
| VNum (n : Z)
| VStr (s : string)
| VPitch (p : pitch).

(** A call either returns or throws a [TypeError] (a property read on
    [null]). *)
Inductive result (A : Type) : Type :=
| Ok (a : A)
| TypeError.

Arguments Ok {A} a.
Arguments TypeError {A}.

(** [null] or a pitch array, as a value. *)
Definition to_value (p : option pitch) : value :=
  match p with Some q => VPitch q | None => VNull end.

(** Number-to-string conversion of an integer. *)
Definition num_to_str (n : Z) : string := NilZero.string_of_int (Z.to_int n).

Fixpoint repeat_str (s : string) (n : nat) : string :=
  match n with
  | O => ""
  | S n' => s ++ repeat_str s n'
  end.

(** The run of [c] at the head of [s], and what follows it. *)
Fixpoint span_char (c : ascii) (s : string) : nat * string :=
  match s with
  | String c' r =>
      if Ascii.eqb c c' then let '(n, r') := span_char c r in (S n, r')
      else (O, s)
  | EmptyString => (O, s)
  end.

Definition is_digit (c : ascii) : bool :=
  let n := N_of_ascii c in (48 <=? n)%N && (n <=? 57)%N.

Fixpoint span_digits (s : string) : string * string :=
  match s with
  | String c r =>
      if is_digit c then let '(ds, r') := span_digits r in (String c ds, r')
      else ("", s)
  | EmptyString => ("", s)
  end.

(** What the note grammar returns: [{ step, alt, oct }], [oct] possibly
    [undefined]. *)
Record parsed_note : Type := mkNote {
  n_step : Z;
  n_alt : Z;
  n_oct : option Z
}.

(** Modelled from the spec: the letter index of the note grammar, C = 0
    to B = 6 (section 3). *)
Definition letter_step (c : ascii) : option Z :=
  match c with
  | "C" | "c" => Some 0
  | "D" | "d" => Some 1
  | "E" | "e" => Some 2
  | "F" | "f" => Some 3
  | "G" | "g" => Some 4
  | "A" | "a" => Some 5
  | "B" | "b" => Some 6
  | _ => None
  end%char.

(** Modelled from the spec: the accidentals of the note grammar, flats
    negative and sharps positive (section 3). *)
Definition parse_acc (s : string) : Z * string :=
  match s with
  | String "#" _ => let '(n, r) := span_char "#" s in (Z.of_nat n, r)
  | String "b" _ => let '(n, r) := span_char "b" s in (- Z.of_nat n, r)
  | String "x" _ => let '(n, r) := span_char "x" s in (2 * Z.of_nat n, r)
  | _ => (0, s)
  end.

(** Modelled from the spec: the note grammar of the external package
    [note-parser] is not part of the sources.  Section 6 gives scientific
    notation as [Letter[Accidentals][Octave]], accidentals being [b] or [#]
    repeated and the octave a decimal integer, possibly negative; the result
    is [{step:0-6, alt:int, oct:int|undefined}] or [null].  The example in
    the documentation of [note] adds lower-case letters and [x] for a double
    sharp. *)
Definition noteParse (s : string) : option parsed_note :=
  match s with
  | String c r =>
      match letter_step c with
      | Some st =>
          let '(a, r') := parse_acc r in
          match r' with
          | "" => Some (mkNote st a None)
          | _ => match NilZero.int_of_string r' with
                 | Some o => Some (mkNote st a (Some (Z.of_int o)))
                 | None => None
                 end
          end
      | None => None
      end
  | EmptyString => None
  end.

(** The two families of interval numbers: perfectable (unison, fourth,
    fifth and their octaves) and major/minor. *)
Inductive ivl_type : Type := TP | TM.

(** Modelled from the spec: the perfectability predicate
    [type(number) -> 'P'|'M'] of the external package [interval-notation]
    (section 6; glossary: unison, fourth, fifth and octave are
    perfectable). *)
Definition ivlNttn_type (n : Z) : ivl_type :=
  let s := (n - 1) mod 7 in
  if (s =? 0) || (s =? 3) || (s =? 4) then TP else TM.

(** [fillStr = (s, num) => Array(Math.abs(num) + 1).join(s)] *)
Definition fillStr (s : string) (num : Z) : string :=
  repeat_str s (Z.abs_nat num).

(** Modelled from the spec: the quality-token formatter
    [altToQ(number, alteration) -> string] of [interval-notation]
    (section 6: [P] perfect, [M] major, [m] minor, [A] augmented and [d]
    diminished, both repeatable). *)
Definition ivlNttn_altToQ (num a : Z) : string :=
  let t := ivlNttn_type (Z.abs num) in
  if a =? 0 then match t with TM => "M" | TP => "P" end
  else if (a =? -1) && (match t with TM => true | TP => false end) then "m"
  else if a >? 0 then fillStr "A" a
  else fillStr "d" (match t with TP => a | TM => a + 1 end).

(** Modelled from the spec: the alteration a quality token stands for on
    a number of the given family, the inverse of [altToQ] (section 6 and the
    glossary). *)
Definition qToAlt (t : ivl_type) (q : string) : option Z :=
  match q, t with
  | "P", TP => Some 0
  | "M", TM => Some 0
  | "m", TM => Some (-1)
  | String "A" _, _ =>
      match span_char "A" q with
      | (n, "") => Some (Z.of_nat n)
      | _ => None
      end
  | String "d" _, _ =>
      match span_char "d" q with
      | (n, "") => Some (match t with TP => - Z.of_nat n | TM => - Z.of_nat n - 1 end)
      | _ => None
      end
  | _, _ => None
  end.

(** What the interval grammar returns: [{ simple, alt, oct, dir }]. *)
Record parsed_ivl : Type := mkIvl {
  i_simple : Z;
  i_alt : Z;
  i_oct : Z;
  i_dir : Z
}.

(** Modelled from the spec: the fields of the interval with the given
    sign, number and quality token (section 3: [simple] is the number
    within the octave, [oct] the octaves above it). *)
Definition ivl_of (sign num : Z) (q : string) : option parsed_ivl :=
  if num <? 1 then None
  else
    let st := (num - 1) mod 7 in
    match qToAlt (ivlNttn_type (st + 1)) q with
    | Some a => Some (mkIvl (st + 1) a ((num - 1) / 7) sign)
    | None => None
    end.

(** Modelled from the spec: the interval grammar of [interval-notation]
    is not part of the sources.  Section 6 gives interval shorthand as a
    signed interval number and a quality token, with examples such as [P8],
    [M3] and [-M2]; the result is [{simple:int>=1, alt:int, oct:int,
    dir:-1|1}] or [null].  The number may come first (the form [strIvl]
    renders) or follow the quality. *)
Definition ivlNttn_parse (s : string) : option parsed_ivl :=
  let '(sign, r) := match s with
                    | String "-" r => (-1, r)
                    | String "+" r => (1, r)
                    | _ => (1, s)
                    end in
  match span_digits r with
  | ("", _) =>
      (* quality first *)
      let q := match r with
               | String c _ => let '(n, _) := span_char c r in repeat_str (String c "") n
               | "" => ""
               end in
      let ds := substring (length q) (length r - length q) r in
      match NilZero.uint_of_string ds with
      | Some u => ivl_of sign (Z.of_uint u) q
      | None => None
      end
  | (ds, q) =>
      match NilZero.uint_of_string ds with
      | Some u => ivl_of sign (Z.of_uint u) q
      | None => None
      end
  end.

(** [cached (parser)]: only strings are parsed.  The cache memoises a
    pure parser, so it is left out; a string that names a property every
    object inherits (such as [constructor]) finds that property in the
    cache, and such strings are outside this model. *)
Definition cached (parser : string -> option pitch) (v : value) : option pitch :=
  match v with
  | VStr s => parser s
  | _ => None
  end.

Definition parseNote : value -> option pitch :=
  cached (fun str =>
    match noteParse str with
    | Some n => encode (n_step n) (n_alt n) (n_oct n) None
    | None => None
    end).

Definition parseIvl : value -> option pitch :=
  cached (fun str =>
    match ivlNttn_parse str with
    | Some i => encode (i_simple i - 1) (i_alt i) (Some (i_oct i)) (Some (i_dir i))
    | None => None
    end).

(** [parsePitch = (str) => parseNote(str) || parseIvl(str)] *)
Definition parsePitch (v : value) : option pitch :=
  match parseNote v with
  | Some p => Some p
  | None => parseIvl v
  end.

(** ** 5. Pitch to string *)

(** [toLetter = (s) => 'CDEFGAB'[s % 7]] *)
Definition toLetter (s : Z) : string :=
  let i := Z.rem s 7 in
  if i <? 0 then "undefined"
  else match get (Z.to_nat i) "CDEFGAB" with
       | Some c => String c ""
       | None => "undefined"
       end.

(** [toAcc = (n) => fillStr(n < 0 ? 'b' : '#', n)] *)
Definition toAcc (n : Z) : string := fillStr (if n <? 0 then "b" else "#") n.

(** [strNum = (n) => n !== null ? n : ''], as it is appended to a string. *)
Definition strNum (n : option Z) : string :=
  match n with Some k => num_to_str k | None => "" end.

(** [!n[3]]: no direction, or a direction of [0]. *)
Definition no_dir (n : pitch) : bool :=
  match n with IvlP _ _ d => d =? 0 | _ => true end.

Definition strNote (n : pitch) : value :=
  if no_dir n then
    let p := decode n in
    VStr (toLetter (step p) ++ toAcc (alt p) ++ strNum (oct p))
  else VNull.

(** [null] counts as [0] in arithmetic. *)
Definition num_of (n : option Z) : Z :=
  match n with Some k => k | None => 0 end.

(** [isAsc = (p) => p.dir === 1] *)
Definition isAsc (p : props) : bool :=
  match dir p with Some d => d =? 1 | None => false end.

(** [isPerf = (p) => ivlNttn.type(p.step + 1) === 'P'] *)
Definition isPerf (p : props) : bool :=
  match ivlNttn_type (step p + 1) with TP => true | TM => false end.

Definition calcNum (p : props) : Z :=
  if isAsc p then step p + 1 + 7 * num_of (oct p)
  else (8 - step p) - 7 * (num_of (oct p) + 1).

Definition calcAlt (p : props) : Z :=
  if isAsc p then alt p
  else if isPerf p then - alt p else - (alt p + 1).

Definition strIvl (pitch : pitch) : value :=
  if isIvlPitch pitch then
    let p := decode pitch in
    let num := calcNum p in
    VStr (num_to_str (num_of (dir p) * num) ++ ivlNttn_altToQ num (calcAlt p))
  else VNull.

(** [strPitch = (p) => p[3] ? strIvl(p) : strNote(p)] *)
Definition strPitch (p : pitch) : value :=
  if no_dir p then strNote p else strIvl p.

(** ** 6. Decorators *)

(** [notation = (parse, str) => (v) => !isPitch(v) ? parse(v) : str(v)],
    in its two uses: [asX = notation(parseX, id)] and
    [toXStr = notation(id, strX)]. *)
Definition as_notation (parse : value -> option pitch) (v : value) : option pitch :=
  match v with
  | VPitch p => Some p
  | _ => parse v
  end.

Definition to_notation (str : pitch -> value) (v : value) : value :=
  match v with
  | VPitch p => str p
  | _ => v
  end.

Definition asNote := as_notation parseNote.
Definition asIvl := as_notation parseIvl.
Definition asPitch := as_notation parsePitch.

Definition toNoteStr := to_notation strNote.
Definition toIvlStr := to_notation strIvl.
Definition toPitchStr := to_notation strPitch.

(** [pitchOp = (parse, to) => (fn) => (v) => ...].  The decorated function
    [fn] returns [None] where the source computes with [undefined] (a field
    the pitch array does not have), which leaves the integers. *)
Definition pitchOp (parse : value -> option pitch) (to : value -> value)
    (fn : pitch -> option value) (v : value) : option value :=
  match v with
  | VPitch p => fn p
  | _ => match parse v with
         | Some p => option_map to (fn p)
         | None => Some VNull
         end
  end.

Definition noteFn := pitchOp parseNote toNoteStr.
Definition ivlFn := pitchOp parseIvl toIvlStr.
Definition pitchFn := pitchOp parsePitch toPitchStr.

(** ** 7. Pitch properties *)

Definition chroma : value -> option value :=
  pitchFn (fun n => Some (VNum (7 * fifths n - 12 * fOcts (fifths n)))).

Definition simplify : value -> option value :=
  ivlFn (fun i =>
    match i with
    | IvlP f _ d =>
        let s := decodeStep (d * f) in
        let a := decodeAlt (d * f) in
        Some (VPitch (ivlPitch f (- d * (idx FIFTH_OCTS s + 4 * a)) (Some d)))
    | _ => None
    end).

Definition simplifyAsc : value -> option value :=
  ivlFn (fun i =>
    match simplify (VPitch i) with
    | Some (VPitch (IvlP f o d)) =>
        Some (VPitch (if d =? 1 then IvlP f o d else ivlPitch f (o + 1) (Some 1)))
    | _ => None
    end).

(** [height = (p) => p[1] * 7 + 12 * p[2]], read on pitches with octave. *)
Definition height (p : pitch) : option Z :=
  match p with
  | PC _ => None
  | NoteP f o | IvlP f o _ => Some (f * 7 + 12 * o)
  end.

(** ** 8. Midi numbers *)

Definition is_space (c : ascii) : bool :=
  match c with
  | " " | "009" | "010" | "011" | "012" | "013" => true
  | _ => false
  end%char.

Fixpoint trim_left (s : string) : string :=
  match s with
  | String c r => if is_space c then trim_left r else s
  | EmptyString => s
  end.

Fixpoint trim_right (s : string) : string :=
  match s with
  | String c r =>
      match trim_right r with
      | EmptyString => if is_space c then "" else String c ""
      | r' => String c r'
      end
  | EmptyString => s
  end.

(** The number a string converts to: white space is trimmed, the empty
    string is [0], decimal digits with an optional sign are that integer,
    and [None] stands for [NaN].  This is the conversion of JavaScript on
    the strings that [decimal_or_text] below accepts; the other numeric
    literals (a fraction, an exponent, a radix prefix, [Infinity]) are not
    read, and the properties that convert a string assume
    [decimal_or_text]. *)
Definition str_to_number (s : string) : option Z :=
  match trim_right (trim_left s) with
  | "" => Some 0
  | String "+" r => option_map Z.of_uint (NilZero.uint_of_string r)
  | t => option_map Z.of_int (NilZero.int_of_string t)
  end.

(** Conversion to a number, as in [+val] and in comparisons with a
    number. *)
Definition to_number (v : value) : option Z :=
  match v with
  | VNull => Some 0
  | VUndef => None
  | VBool b => Some (if b then 1 else 0)
  | VNum n => Some n
  | VStr s => str_to_number s
  | VPitch _ => None
  end.

Definition isValue (v : value) : bool :=
  match v with VNull | VUndef => false | _ => true end.

Definition isArr (v : value) : bool :=
  match v with VPitch _ => true | _ => false end.

(** [isMidi = (m) => isValue(m) && !isArr(m) && m >= 0 && m < 128] *)
Definition isMidi (m : value) : bool :=
  isValue m && negb (isArr m) &&
  match to_number m with
  | Some n => (n >=? 0) && (n <? 128)
  | None => false
  end.

Definition midi (val : value) : value :=
  let p := asNote val in
  match match p with
        | Some q => if hasOct q then height q else None
        | None => None
        end with
  | Some h => VNum (h + 12)
  | None =>
      if isMidi val then
        match to_number val with Some n => VNum n | None => VNull end
      else VNull
  end.

Definition PCS : list string :=
  ["C"; "Db"; "D"; "Eb"; "E"; "F"; "Gb"; "G"; "Ab"; "A"; "Bb"; "B"].

(** [fromMidi (m)].  For a negative [m] that is no multiple of 12 the
    index [m % 12] is negative, [PCS[m % 12]] is [undefined] and the sum
    [pc + o] is [NaN]: [None]. *)
Definition fromMidi (m : Z) : option string :=
  let i := Z.rem m 12 in
  if i <? 0 then None
  else
    match nth_error PCS (Z.to_nat i) with
    | Some pc => Some (pc ++ num_to_str (m / 12 - 1))
    | None => None
    end.

(** ** 9. Transposition and distance *)

(** [trBy (i, p)], with the two fields [i[1]] and [i[2]] it reads of the
    interval: [transpose] calls it on an interval pitch only. *)
Definition trBy (i1 i2 : Z) (p : option pitch) : option pitch :=
  match p with
  | None => None
  | Some (PC f') => Some (PC (i1 + f'))
  | Some (NoteP f' o') => Some (NoteP (i1 + f') (i2 + o'))
  | Some (IvlP f' o' _) =>
      let f := i1 + f' in
      let o := i2 + o' in
      Some (IvlP f o (calcDir f o))
  end.

(** The pitch [r] that [transpose] renders. *)
Definition transpose_pitch (pa pb : option pitch) : option pitch :=
  match pa with
  | Some (IvlP fa oa _) => trBy fa oa pb
  | _ => match pb with
         | Some (IvlP fb ob _) => trBy fb ob pa
         | _ => None
         end
  end.

Definition transpose (a b : value) : value :=
  let pa := asPitch a in
  let pb := asPitch b in
  toPitchStr (to_value (transpose_pitch pa pb)).

(** [substr (a, b)]: reading [length] of [null] throws. *)
Definition substr (a b : option pitch) : result (option pitch) :=
  match a, b with
  | Some pa, Some pb =>
      Ok (if negb (arr_length pa =? arr_length pb) then None
          else match pa, pb with
               | PC fa, PC fb =>
                   Some (ivlPitch (fb - fa) (- fOcts (fb - fa)) (Some 1))
               | (NoteP fa oa | IvlP fa oa _), (NoteP fb ob | IvlP fb ob _) =>
                   Some (ivlPitch (fb - fa) (ob - oa) None)
               | _, _ => None
               end)
  | _, _ => TypeError
  end.

(** [a === pa]: a pitch array is returned as it is by [asPitch], and
    [null] is what [asPitch] makes of [null]. *)
Definition same_ref (a : value) (pa : option pitch) : bool :=
  match a, pa with
  | VPitch _, Some _ => true
  | VNull, None => true
  | _, _ => false
  end.

Definition distance (a b : value) : result value :=
  let pa := asPitch a in
  let pb := asPitch b in
  match substr pa pb with
  | Ok i =>
      Ok (if same_ref a pa && same_ref b pb then to_value i
          else toIvlStr (to_value i))
  | TypeError => TypeError
  end.

(** ** 10. Definitions used to state the properties *)

(** The steps of the perfectable family: unison, fourth and fifth. *)
Definition perfectable (s : Z) : bool := (s =? 0) || (s =? 3) || (s =? 4).

(** The step, alteration and octave that [decode] reads off a descending
    interval encoded from (s, a, o). *)
Definition desc_step (s : Z) : Z := (7 - s) mod 7.

Definition desc_alt (s a : Z) : Z := if perfectable s then - a else - a - 1.

Definition desc_oct (s o : Z) : Z := - o - (if s =? 0 then 0 else 1).

(** An interval with its direction recomputed from its height; other
    pitches unchanged. *)
Definition redirect (b : pitch) : pitch :=
  match b with
  | IvlP f o _ => IvlP f o (calcDir f o)
  | _ => b
  end.

(** The direction of an interval is the sign of its height. *)
Definition dir_agrees (b : pitch) : bool :=
  match b with
  | IvlP f o d => calcDir f o =? d
  | _ => true
  end.

(** Semitones of the seven letters above C. *)
Definition SEMITONES : list Z := [0; 2; 4; 5; 7; 9; 11].

(** The value [midi] falls back to on a number: the number if it is a
    midi number, [null] otherwise ([None] is [NaN]). *)
Definition midi_of_number (n : option Z) : value :=
  match n with
  | Some k => if (0 <=? k) && (k <? 128) then VNum k else VNull
  | None => VNull
  end.

(** [fromMidi(m)] is a name without sharp, which [parseNote] reads as a
    note pitch that is flat or natural, that [strNote] renders as that same
    name, and whose height plus 12 is [m], as [midi] says. *)
Definition fromMidi_check (m : Z) : bool :=
  match fromMidi m with
  | Some name =>
      match parseNote (VStr name) with
      | Some (NoteP f o) =>
          (f * 7 + 12 * o + 12 =? m)
          && (-1 <=? decodeAlt f) && (decodeAlt f <=? 0)
          && match strNote (NoteP f o) with
             | VStr n => (n =? name)%string
             | _ => false
             end
          && match index 0 "#" name with None => true | Some _ => false end
          && match midi (VStr name) with VNum k => k =? m | _ => false end
      | _ => false
      end
  | None => false
  end.

(** An interval moved up one octave and made ascending. *)
Definition octave_up (q : pitch) : pitch :=
  match q with
  | IvlP f o _ => IvlP f (o + 1) 1
  | _ => q
  end.

(** ** 11. More of the library: interval numbers, ranges, heights *)

(** [semitones = ivlFn(height)] *)
Definition semitones : value -> option value :=
  ivlFn (fun p => option_map VNum (height p)).

Definition simpleNum : value -> option value :=
  ivlFn (fun i => Some (VNum (step (decode i) + 1))).

(** [number = ivlFn((i) => calcNum(decode(i)))] *)
Definition number : value -> option value :=
  ivlFn (fun i => Some (VNum (calcNum (decode i)))).

(** An array of numbers while a loop fills it: [None] is a hole.
    Writing past the end extends the array with holes. *)
Fixpoint js_set (a : list (option Z)) (i : nat) (v : Z) : list (option Z) :=
  match i, a with
  | O, [] => [Some v]
  | O, _ :: t => Some v :: t
  | S i', [] => None :: js_set [] i' v
  | S i', h :: t => h :: js_set t i' v
  end.

(** The loop of [ascR]: [for (var a = []; n--; a[n] = n + b)], with [k]
    the value of [n] when the test is made. *)
Fixpoint ascR_loop (b : Z) (k : nat) (a : list (option Z)) : list (option Z) :=
  match k with
  | O => a
  | S k' => ascR_loop b k' (js_set a k' (Z.of_nat k' + b))
  end.

(** The loop of [descR]: [for (var a = []; n--; a[n] = b - n)]. *)
Fixpoint descR_loop (b : Z) (k : nat) (a : list (option Z)) : list (option Z) :=
  match k with
  | O => a
  | S k' => descR_loop b k' (js_set a k' (b - Z.of_nat k'))
  end.

(** [ascR (b, n)] and [descR (b, n)].  The test [n--] only fails at [0], so
    from a negative [n] the loop does not end: [None]. *)
Definition ascR (b n : Z) : option (list (option Z)) :=
  if n <? 0 then None else Some (ascR_loop b (Z.to_nat n) []).

Definition descR (b n : Z) : option (list (option Z)) :=
  if n <? 0 then None else Some (descR_loop b (Z.to_nat n) []).

(** [isNum(a) ? a : midi(a)]; [None] is [null]. *)
Definition num_or_midi (a : value) : option Z :=
  match a with
  | VNum n => Some n
  | _ => match midi a with VNum n => Some n | _ => None end
  end.

Definition range (a b : value) : option (list (option Z)) :=
  match num_or_midi a, num_or_midi b with
  | Some ma, Some mb =>
      if ma <? mb then ascR ma (mb - ma + 1) else descR ma (ma - mb + 1)
  | _, _ => Some []
  end.

Definition is_null (v : value) : bool :=
  match v with VNull => true | _ => false end.

(** [arr.map(fn).filter((x) => x !== null)]: both skip the holes.  [fn]
    returns [None] where the function of the source returns [NaN]; the
    filter keeps that entry, and the list is then outside this model:
    [None]. *)
Fixpoint map_filter_null (fn : Z -> option value) (l : list (option Z))
    : option (list value) :=
  match l with
  | [] => Some []
  | None :: t => map_filter_null fn t
  | Some z :: t =>
      match fn z, map_filter_null fn t with
      | Some v, Some r => Some (if is_null v then r else v :: r)
      | _, _ => None
      end
  end.

Definition noteRange (fn : Z -> option value) (a b : value) : option (list value) :=
  match range a b with
  | Some l => map_filter_null fn l
  | None => None
  end.

(** [chromatic = noteRange(fromMidi)] *)
Definition chromatic : value -> value -> option (list value) :=
  noteRange (fun m => option_map VStr (fromMidi m)).

(** What [objHeight] returns: [-Infinity] or an integer. *)
Inductive height_val : Type :=
| NegInfinity
| Height (h : Z).

Definition objHeight (p : option pitch) : height_val :=
  match p with
  | None => NegInfinity
  | Some q =>
      let f := fifths q * 7 in
      let o := match q with
               | PC _ => - (f / 12) - 10
               | NoteP _ o' | IvlP _ o' _ => o'
               end in
      Height (f + o * 12)
  end.

(** Truthiness of a value. *)
Definition truthy (v : value) : bool :=
  match v with
  | VNull | VUndef => false
  | VBool b => b
  | VNum n => negb (n =? 0)
  | VStr s => negb (s =? "")%string
  | VPitch _ => true
  end.

(** [harmonizer (list) (pitch)] on a list that is an array ([asList]
    returns an array as it is).  [listToStr] reads an array whose first
    entry is the string ['tnl'] as a pitch; no result of [transpose] is
    that string, and [None] stands for that case. *)
Definition harmonizer (src : list value) (pitch : value) : option (list value) :=
  let param := map (fun v => to_value (asPitch v)) src in
  let shift := if truthy pitch then pitch else VStr "P1" in
  let result := filter truthy (map (transpose shift) param) in
  match result with
  | VStr "tnl" :: _ => None
  | _ => Some (map toPitchStr result)
  end.

(** ** 12. Definitions used to state further properties *)

(** The numbers from [a] on, [n] of them, going up or down. *)
Definition upfrom (a : Z) (n : nat) : list Z :=
  map (fun i => a + Z.of_nat i) (seq 0 n).

Definition downfrom (a : Z) (n : nat) : list Z :=
  map (fun i => a - Z.of_nat i) (seq 0 n).

(** The numbers from [a] to [b], both included. *)
Definition fromto (a b : Z) : list Z :=
  if a <? b then upfrom a (Z.to_nat (b - a + 1))
  else downfrom a (Z.to_nat (a - b + 1)).

(** What [encode] makes of the decoded fields of a pitch. *)
Definition reencoded (p : pitch) : pitch :=
  match p with
  | IvlP f o d =>
      if d =? 0 then NoteP f o
      else IvlP (encDir d * f) (encDir d * o) (encDir d)
  | _ => p
  end.

Definition is_string (v : value) : bool :=
  match v with VStr s => negb (s =? "")%string | _ => false end.

Definition all_digits (s : string) : bool :=
  match span_digits s with
  | (String _ _, "") => true
  | _ => false
  end.

(** The strings on which [str_to_number] is the conversion of JavaScript:
    blank ones, decimal digits with an optional sign, and text whose first
    character after the white space is an ASCII character that cannot start
    a numeric literal (no digit, sign, point or [I]). *)
Definition decimal_or_text (s : string) : bool :=
  match trim_right (trim_left s) with
  | "" => true
  | String c r =>
      if is_digit c then all_digits (String c r)
      else if (c =? "+")%char || (c =? "-")%char then all_digits r
      else if (c =? ".")%char || (c =? "I")%char then false
      else (N_of_ascii c <? 128)%N
  end.

(** The values this model follows the code on: every value that is not a
    string, and the strings above. *)
Definition in_model (v : value) : bool :=
  match v with
  | VStr s => decimal_or_text s
  | _ => true
  end.


(** * Properties *)

(** ** The codec *)

Lemma step_cases (s : Z) :
  0 <= s <= 6 -> s = 0 \/ s = 1 \/ s = 2 \/ s = 3 \/ s = 4 \/ s = 5 \/ s = 6.
Proof. lia. Qed.

Ltac each_step H :=
  destruct (step_cases _ H) as [-> | [-> | [-> | [-> | [-> | [-> | ->]]]]]].

(** Evaluate the table lookups and the tests whose argument is known. *)
Ltac eval_tables :=
  repeat match goal with
         | |- context [idx ?l ?k] =>
             let v := eval vm_compute in (idx l k) in
             progress change (idx l k) with v
         | |- context [perfectable ?k] =>
             let v := eval vm_compute in (perfectable k) in
             progress change (perfectable k) with v
         | |- context [?k =? 0] =>
             let v := eval vm_compute in (k =? 0) in
             progress change (k =? 0) with v
         end;
  cbv iota.

Lemma unaltered_mod (f : Z) : unaltered f = (f + 1) mod 7.
Proof.
  unfold unaltered.
  destruct (Z.ltb_spec (Z.rem (f + 1) 7) 0);
    Z.to_euclidean_division_equations; lia.
Qed.

Lemma STEPS_range (r : Z) : 0 <= r <= 6 -> 0 <= idx STEPS r <= 6.
Proof. intros H. each_step H; vm_compute; split; discriminate. Qed.

Lemma decodeStep_range (f : Z) : 0 <= decodeStep f <= 6.
Proof.
  unfold decodeStep. apply STEPS_range. rewrite unaltered_mod.
  Z.to_euclidean_division_equations. lia.
Qed.

Lemma decodeAlt_shift (r a : Z) : 0 <= r + 1 <= 6 -> decodeAlt (r + 7 * a) = a.
Proof.
  intros H. unfold decodeAlt. Z.to_euclidean_division_equations. lia.
Qed.

Lemma unaltered_shift (r a : Z) : 0 <= r + 1 <= 6 -> unaltered (r + 7 * a) = r + 1.
Proof.
  intros H. rewrite unaltered_mod. Z.to_euclidean_division_equations. lia.
Qed.

Lemma desc_step_range (s : Z) : 0 <= desc_step s <= 6.
Proof. unfold desc_step. Z.to_euclidean_division_equations. lia. Qed.

(** What [encode] and [decode] do on a step that passes the guard of
    [encode]. *)
Section ValidStep.

Variable s : Z.
Hypothesis Hs : 0 <= s <= 6.

Lemma valid_step_guard : (s <? 0) || (s >? 6) = false.
Proof.
  rewrite Z.gtb_ltb. apply orb_false_iff.
  split; apply Z.ltb_ge; lia.
Qed.

(** [FIFTHS] and [STEPS] are inverse tables, up to the shift by one. *)
Lemma FIFTHS_range : 0 <= idx FIFTHS s + 1 <= 6.
Proof. each_step Hs; vm_compute; split; discriminate. Qed.

Lemma STEPS_FIFTHS : idx STEPS (idx FIFTHS s + 1) = s.
Proof. each_step Hs; reflexivity. Qed.

Lemma decodeAlt_encPC (a : Z) : decodeAlt (encPC s a) = a.
Proof. apply decodeAlt_shift, FIFTHS_range. Qed.

Lemma decodeStep_encPC (a : Z) : decodeStep (encPC s a) = s.
Proof.
  unfold decodeStep, encPC.
  rewrite unaltered_shift by apply FIFTHS_range.
  apply STEPS_FIFTHS.
Qed.

(** Decoding a note pitch built by [encode] gives the fields back, for
    every integer alteration and octave. *)
Lemma decode_encode_note (a o : Z) :
  option_map decode (encode s a (Some o) None)
  = Some (mkProps s a (Some o) None).
Proof.
  unfold encode. rewrite valid_step_guard.
  cbv zeta. unfold noteArr, decode. cbn [option_map fifths dir_or_null].
  rewrite decodeAlt_encPC, decodeStep_encPC.
  unfold encOct. do 3 f_equal. lia.
Qed.

(** The height of an encoded note, counted from C-1. *)
Lemma height_encoded (a o : Z) :
  encPC s a * 7 + 12 * encOct s a o + 12
  = idx SEMITONES s + a + 12 * (o + 1).
Proof. unfold encPC, encOct. each_step Hs; eval_tables; lia. Qed.

(** Intervals: [encode] multiplies fifths and octaves by the direction. *)
Lemma encode_interval (a o d : Z) :
  d = 1 \/ d = -1 ->
  encode s a (Some o) (Some d)
  = Some (IvlP (d * encPC s a) (d * encOct s a o) d).
Proof.
  intros Hd. unfold encode. rewrite valid_step_guard. cbv zeta.
  unfold ivlPitch. destruct Hd as [-> | ->]; reflexivity.
Qed.

(** The negated fifths are those of the inverted step. *)
Lemma neg_encPC (a : Z) :
  -1 * encPC s a = encPC (desc_step s) (desc_alt s a).
Proof. unfold encPC, desc_alt. each_step Hs; eval_tables; lia. Qed.

Lemma desc_oct_eq (a o : Z) :
  -1 * encOct s a o + 4 * desc_alt s a + idx FIFTH_OCTS (desc_step s)
  = desc_oct s o.
Proof.
  unfold encOct, desc_alt, desc_oct. each_step Hs; eval_tables; lia.
Qed.

Lemma perfectable_desc_step : perfectable (desc_step s) = perfectable s.
Proof. each_step Hs; reflexivity. Qed.

Lemma decode_ascending (a o : Z) :
  decode (IvlP (1 * encPC s a) (1 * encOct s a o) 1)
  = mkProps s a (Some o) (Some 1).
Proof.
  unfold decode. cbn [fifths dir_or_null Z.eqb].
  rewrite Z.mul_1_l.
  rewrite decodeAlt_encPC, decodeStep_encPC.
  unfold encOct. do 3 f_equal. lia.
Qed.

End ValidStep.

Lemma decode_descending (s a o : Z) :
  0 <= s <= 6 ->
  decode (IvlP (-1 * encPC s a) (-1 * encOct s a o) (-1))
  = mkProps (desc_step s) (desc_alt s a) (Some (desc_oct s o)) (Some (-1)).
Proof.
  intros Hs. unfold decode. cbn [fifths dir_or_null Z.eqb].
  rewrite (neg_encPC s Hs).
  rewrite decodeAlt_encPC, decodeStep_encPC by apply desc_step_range.
  rewrite (desc_oct_eq s Hs). reflexivity.
Qed.

Lemma isPerf_perfectable (p : props) :
  0 <= step p <= 6 -> isPerf p = perfectable (step p).
Proof.
  intros H. unfold isPerf, ivlNttn_type, perfectable.
  replace ((step p + 1 - 1) mod 7) with (step p)
    by (Z.to_euclidean_division_equations; lia).
  destruct ((step p =? 0) || (step p =? 3) || (step p =? 4)); reflexivity.
Qed.

(** C1: for step in 0..6, alt in -4..4 and oct in -2..10, decoding the
    pitch encoded from (step, alt, oct) without a direction gives
    [{step, alt, oct, dir: null}]. *)
Theorem decode_encode_inverse (s a o : Z) :
  0 <= s <= 6 -> -4 <= a <= 4 -> -2 <= o <= 10 ->
  option_map decode (encode s a (Some o) None) = Some (mkProps s a (Some o) None).
Proof. intros Hs _ _. apply decode_encode_note, Hs. Qed.

Lemma decode_encode_inverse_witness :
  option_map decode (encode 3 (-4) (Some 10) None)
  = Some (mkProps 3 (-4) (Some 10) None).
Proof. apply (decode_encode_inverse 3 (-4) 10); lia. Defined.

(** C2, as the code has it: an ascending interval decodes to the fields
    it was encoded from; a descending one decodes to the fields of its
    negated fifths, with direction -1, and [calcNum] and [calcAlt] recover
    the interval number and the alteration from them. *)
Theorem decode_encode_interval (s a o d : Z) :
  0 <= s <= 6 -> d = 1 \/ d = -1 ->
  exists p,
    encode s a (Some o) (Some d) = Some p /\
    decode p = (if d =? 1 then mkProps s a (Some o) (Some 1)
                else mkProps (desc_step s) (desc_alt s a)
                             (Some (desc_oct s o)) (Some (-1))) /\
    calcNum (decode p) = s + 1 + 7 * o /\
    calcAlt (decode p) = a.
Proof.
  intros H Hd. eexists. split; [apply encode_interval; assumption|].
  destruct Hd as [-> | ->].
  - rewrite decode_ascending by assumption. cbn [Z.eqb Pos.eqb].
    split; [reflexivity|]. split; reflexivity.
  - rewrite decode_descending by assumption. cbn [Z.eqb].
    split; [reflexivity|].
    unfold calcNum, calcAlt.
    rewrite isPerf_perfectable by apply desc_step_range.
    cbn [isAsc dir step alt oct num_of Z.eqb].
    rewrite (perfectable_desc_step _ H).
    unfold desc_alt, desc_oct, desc_step.
    split.
    + each_step H; vm_compute ((7 - _) mod 7); cbn [Z.eqb]; lia.
    + destruct (perfectable s); lia.
Qed.

Lemma decode_encode_interval_witness :
  exists p,
    encode 1 0 (Some 0) (Some (-1)) = Some p /\
    decode p = mkProps 6 (-1) (Some (-1)) (Some (-1)) /\
    calcNum (decode p) = 2 /\
    calcAlt (decode p) = 0.
Proof. apply (decode_encode_interval 1 0 0 (-1)); [lia | right; reflexivity]. Defined.

(** C2 as stated fails: the descending major second, encoded from
    (1, 0, 0, -1), does not decode to those fields. *)
Lemma decode_encode_descending_differs :
  option_map decode (encode 1 0 (Some 0) (Some (-1)))
  <> Some (mkProps 1 0 (Some 0) (Some (-1))).
Proof. vm_compute. discriminate. Qed.

(** ** Transposition and distance *)









(** C3 as stated fails on intervals: from the perfect unison to the
    diminished unison ([1d], encoded from (0, -1, 0, 1)) the distance is a
    descending augmented unison, and transposing by it gives that interval
    and not [1d]; the same happens on the names. *)
Lemma diminished_unison_not_restored :
  encode 0 0 (Some 0) (Some 1) = Some (IvlP 0 0 1) /\
  encode 0 (-1) (Some 0) (Some 1) = Some (IvlP (-7) 4 1) /\
  substr (Some (IvlP 0 0 1)) (Some (IvlP (-7) 4 1)) = Ok (Some (IvlP (-7) 4 (-1))) /\
  transpose_pitch (Some (IvlP 0 0 1)) (Some (IvlP (-7) 4 (-1)))
    = Some (IvlP (-7) 4 (-1)) /\
  IvlP (-7) 4 (-1) <> IvlP (-7) 4 1 /\
  distance (VStr "1P") (VStr "1d") = Ok (VStr "-1A") /\
  transpose (VStr "1P") (VStr "-1A") = VStr "-1A".
Proof. vm_compute. repeat split; discriminate. Qed.

(** C4: the distance between two pitch classes is the interval with
    fifths [b.fifths - a.fifths], octaves [-fOcts] of that difference and
    direction 1, whatever the order of the two, and it decodes with
    direction 1. *)
Theorem distance_pitch_classes (fa fb : Z) :
  let i := IvlP (fb - fa) (- fOcts (fb - fa)) 1 in
  substr (Some (PC fa)) (Some (PC fb)) = Ok (Some i) /\
  distance (VPitch (PC fa)) (VPitch (PC fb)) = Ok (VPitch i) /\
  dir (decode i) = Some 1.
Proof. cbv zeta. repeat split. Qed.

(** When an argument does not parse, [transpose] returns [null]. *)
Lemma transpose_unparseable_null (s : string) (v : value) :
  parsePitch (VStr s) = None ->
  transpose (VStr s) v = VNull /\ transpose v (VStr s) = VNull.
Proof.
  intros H. unfold transpose. cbn [asPitch as_notation]. rewrite H.
  split.
  - cbn [transpose_pitch]. destruct (asPitch v) as [[? | ? ? | ? ? ?] |]; reflexivity.
  - destruct (asPitch v) as [[? | ? ? | ? ? ?] |]; reflexivity.
Qed.

(** C5 fails for [distance]: when an argument is a string that does not
    parse, [substr] reads [length] of [null] and the call throws, where
    [transpose] returns [null]. *)
Theorem distance_unparseable_throws (s : string) (v : value) :
  parsePitch (VStr s) = None ->
  distance (VStr s) v = TypeError /\ distance v (VStr s) = TypeError.
Proof.
  intros H. unfold distance. cbn [asPitch as_notation]. rewrite H.
  split; [reflexivity|].
  destruct (asPitch v); reflexivity.
Qed.

Lemma distance_unparseable_throws_witness :
  distance (VStr "hello") (VStr "C4") = TypeError /\
  distance (VStr "C4") (VStr "hello") = TypeError.
Proof. apply (distance_unparseable_throws "hello" (VStr "C4")). reflexivity. Defined.

(** ** Midi numbers *)

Lemma letter_step_range (c : ascii) (st : Z) :
  letter_step c = Some st -> 0 <= st <= 6.
Proof.
  destruct c as [[] [] [] [] [] [] [] []]; cbn; intros E;
    try discriminate E; injection E as <-; lia.
Qed.

Lemma noteParse_step_range (s : string) (n : parsed_note) :
  noteParse s = Some n -> 0 <= n_step n <= 6.
Proof.
  unfold noteParse. destruct s as [| c r]; [discriminate|].
  destruct (letter_step c) as [st |] eqn:E; [|discriminate].
  apply letter_step_range in E.
  destruct (parse_acc r) as [a r'].
  destruct r' as [| c' r''].
  - intros [= <-]. exact E.
  - destruct (NilZero.int_of_string (String c' r'')); [|discriminate].
    intros [= <-]. exact E.
Qed.

Lemma isMidi_fallback (v : value) :
  isValue v = true -> isArr v = false ->
  (if isMidi v then match to_number v with Some n => VNum n | None => VNull end
   else VNull) = midi_of_number (to_number v).
Proof.
  intros Hv Ha. unfold isMidi, midi_of_number. rewrite Hv, Ha. cbn [andb negb].
  destruct (to_number v) as [n |]; [|reflexivity].
  rewrite Z.geb_leb. reflexivity.
Qed.

(** C6, as the code has it, for a value that is not a string or is a
    string [decimal_or_text] accepts: a pitch with octave (a name that
    parses as a note with octave, or a pitch array that has one) gives its
    height plus 12; otherwise a value other than [null], [undefined] and
    arrays whose conversion to a number lies in 0..127 (a number, a boolean,
    a string of digits or of white space) gives that number; anything else
    gives [null]. *)
Theorem midi_cases (v : value) :
  in_model v = true ->
  midi v =
    match v with
    | VPitch (NoteP f o) | VPitch (IvlP f o _) => VNum (f * 7 + 12 * o + 12)
    | VPitch (PC _) | VNull | VUndef => VNull
    | VStr s =>
        match noteParse s with
        | Some (mkNote st a (Some o)) => VNum (idx SEMITONES st + a + 12 * (o + 1))
        | _ => midi_of_number (str_to_number s)
        end
    | VNum _ | VBool _ => midi_of_number (to_number v)
    end
  /\ midi (VStr "C4") = VNum 60.
Proof.
  intros _. split; [|reflexivity].
  destruct v as [| | b | n | s | [f | f o | f o d]]; try reflexivity.
  - unfold midi. cbn [asNote as_notation parseNote cached].
    apply isMidi_fallback; reflexivity.
  - unfold midi. cbn [asNote as_notation parseNote cached].
    apply isMidi_fallback; reflexivity.
  - unfold midi. cbn [asNote as_notation parseNote cached].
    destruct (noteParse s) as [[st a [o |]] |] eqn:E.
    + apply noteParse_step_range in E. cbn [n_step n_alt n_oct] in *.
      unfold encode. rewrite (valid_step_guard _ E). cbv zeta.
      cbn [noteArr hasOct height]. f_equal. apply height_encoded, E.
    + apply noteParse_step_range in E. cbn [n_step n_alt n_oct] in *.
      unfold encode. rewrite (valid_step_guard _ E). cbv zeta.
      cbn [pcArr hasOct]. apply (isMidi_fallback (VStr s)); reflexivity.
    + apply (isMidi_fallback (VStr s)); reflexivity.
Qed.

Lemma midi_cases_witness :
  midi (VStr "60") = VNum 60 /\ midi (VStr "C4") = VNum 60.
Proof. apply (midi_cases (VStr "60")). reflexivity. Defined.

(** C6 as stated fails: the empty string and the string [60] are not note
    names and not numbers, and the boolean [true] is not a number, yet
    [midi] returns 0, 60 and 1 for them; an interval array gives its height
    plus 12. *)
Lemma midi_coerces_strings :
  noteParse "" = None /\ midi (VStr "") = VNum 0 /\
  noteParse "60" = None /\ midi (VStr "60") = VNum 60 /\
  midi (VBool true) = VNum 1 /\
  midi (VPitch (IvlP 1 0 1)) = VNum 19.
Proof. repeat split. Qed.

Lemma fromMidi_check_all :
  forallb (fun n => fromMidi_check (Z.of_nat n)) (seq 0 128) = true.
Proof. vm_compute. reflexivity. Qed.

(** C7: for every integer m from 0 to 127, [fromMidi(m)] is a name
    without sharp that [parseNote] reads as a note pitch, flat or natural,
    whose height plus 12 is m and which [strNote] renders as that same name;
    so [midi(fromMidi(m))] is m. *)
Theorem midi_fromMidi (m : Z) :
  0 <= m <= 127 ->
  exists name f o,
    fromMidi m = Some name /\
    parseNote (VStr name) = Some (NoteP f o) /\
    f * 7 + 12 * o + 12 = m /\
    -1 <= decodeAlt f <= 0 /\
    strNote (NoteP f o) = VStr name /\
    index 0 "#" name = None /\
    midi (VStr name) = VNum m.
Proof.
  intros H.
  pose proof fromMidi_check_all as A.
  rewrite forallb_forall in A.
  specialize (A (Z.to_nat m)).
  rewrite Z2Nat.id in A by lia.
  assert (I : In (Z.to_nat m) (seq 0 128)) by (apply in_seq; lia).
  apply A in I. unfold fromMidi_check in I.
  destruct (fromMidi m) as [name |] eqn:Ef; [|discriminate I].
  destruct (parseNote (VStr name)) as [[f | f o | f o d] |] eqn:Ep;
    try discriminate I.
  destruct (strNote (NoteP f o)) as [| | | | n |] eqn:Es;
    try (rewrite !andb_false_r in I; discriminate I).
  destruct (index 0 "#" name) eqn:Ei;
    [rewrite !andb_false_r in I; discriminate I|].
  destruct (midi (VStr name)) as [| | | k | |] eqn:Em;
    try (rewrite !andb_false_r in I; discriminate I).
  repeat (apply andb_true_iff in I; destruct I as [I ?]).
  exists name, f, o.
  split; [reflexivity|]. split; [exact Ep|].
  split; [apply Z.eqb_eq; assumption|].
  split; [split; apply Z.leb_le; assumption|].
  split; [rewrite Es; f_equal; apply String.eqb_eq; assumption|].
  split; [exact Ei|].
  rewrite Em. f_equal. apply Z.eqb_eq. assumption.
Qed.

Lemma midi_fromMidi_witness :
  exists name f o,
    fromMidi 61 = Some name /\
    parseNote (VStr name) = Some (NoteP f o) /\
    f * 7 + 12 * o + 12 = 61 /\
    -1 <= decodeAlt f <= 0 /\
    strNote (NoteP f o) = VStr name /\
    index 0 "#" name = None /\
    midi (VStr name) = VNum 61.
Proof. apply (midi_fromMidi 61). lia. Defined.

(** ** Rendering intervals *)

(** C8: for a descending interval (direction -1) [strIvl] takes the
    number (8 - step) - 7 * (oct + 1) from the decoded fields, and the
    alteration -alt when the decoded step is perfectable and -(alt + 1)
    when it is not; for an ascending one the number is step + 1 + 7 * oct
    and the alteration is alt. *)
Theorem strIvl_number_and_alteration (f o : Z) :
  (let p := decode (IvlP f o (-1)) in
   exists oc,
     oct p = Some oc /\
     let num := (8 - step p) - 7 * (oc + 1) in
     let al := if perfectable (step p) then - alt p else - (alt p + 1) in
     calcNum p = num /\
     calcAlt p = al /\
     strIvl (IvlP f o (-1)) = VStr (num_to_str (-1 * num) ++ ivlNttn_altToQ num al)) /\
  (let p := decode (IvlP f o 1) in
   exists oc,
     oct p = Some oc /\
     let num := step p + 1 + 7 * oc in
     calcNum p = num /\
     calcAlt p = alt p /\
     strIvl (IvlP f o 1) = VStr (num_to_str (1 * num) ++ ivlNttn_altToQ num (alt p))).
Proof.
  split; cbv zeta; eexists; (split; [reflexivity|]).
  - unfold strIvl, calcNum, calcAlt. cbn [isIvlPitch].
    rewrite isPerf_perfectable by apply decodeStep_range.
    cbn [decode fifths dir_or_null isAsc dir step alt oct num_of Z.eqb].
    repeat split.
  - unfold strIvl, calcNum, calcAlt. cbn [isIvlPitch].
    cbn [decode fifths dir_or_null isAsc dir step alt oct num_of Z.eqb Pos.eqb].
    repeat split.
Qed.

(** ** Simplifying intervals *)

Lemma simplify_interval (f o d : Z) :
  simplify (VPitch (IvlP f o d))
  = Some (VPitch (ivlPitch f (- d * (idx FIFTH_OCTS (decodeStep (d * f))
                                     + 4 * decodeAlt (d * f))) (Some d))).
Proof. reflexivity. Qed.

(** C9, as the code has it: [simplify] takes the interval encoded from
    (step, alt, oct, dir) to the one encoded from (step, alt, 0, dir), so the
    step, the alteration and the direction stay and the octaves go;
    [simplifyAsc] returns that interval when it ascends and, when it
    descends, the ascending interval with the same fifths one octave up;
    and [simplify('M9')] is rendered number first, as ['2M']. *)
Theorem simplify_encoded (s a o d : Z) :
  0 <= s <= 6 -> d = 1 \/ d = -1 ->
  exists p q,
    encode s a (Some o) (Some d) = Some p /\
    encode s a (Some 0) (Some d) = Some q /\
    simplify (VPitch p) = Some (VPitch q) /\
    simplifyAsc (VPitch p) = Some (VPitch (if d =? 1 then q else octave_up q)) /\
    simplify (VStr "M9") = Some (VStr "2M").
Proof.
  intros H Hd.
  exists (IvlP (d * encPC s a) (d * encOct s a o) d),
         (IvlP (d * encPC s a) (d * encOct s a 0) d).
  split; [apply encode_interval; assumption|].
  split; [apply encode_interval; assumption|].
  assert (S : simplify (VPitch (IvlP (d * encPC s a) (d * encOct s a o) d))
              = Some (VPitch (IvlP (d * encPC s a) (d * encOct s a 0) d))).
  { rewrite simplify_interval.
    replace (d * (d * encPC s a)) with (encPC s a) by (destruct Hd as [-> | ->]; lia).
    rewrite decodeAlt_encPC, decodeStep_encPC by assumption.
    unfold ivlPitch, encOct.
    destruct Hd as [-> | ->]; cbn [Z.eqb]; do 3 f_equal; lia. }
  split; [exact S|].
  split; [|reflexivity].
  unfold simplifyAsc, ivlFn, pitchOp. rewrite S.
  destruct Hd as [-> | ->]; reflexivity.
Qed.

Lemma simplify_encoded_witness :
  exists p q,
    encode 1 0 (Some 1) (Some (-1)) = Some p /\
    encode 1 0 (Some 0) (Some (-1)) = Some q /\
    simplify (VPitch p) = Some (VPitch q) /\
    simplifyAsc (VPitch p) = Some (VPitch (octave_up q)) /\
    simplify (VStr "M9") = Some (VStr "2M").
Proof. apply (simplify_encoded 1 0 1 (-1)); [lia | right; reflexivity]. Defined.

(** The decimal form of a number starts with a digit or a minus sign. *)
Lemma num_to_str_head (n : Z) :
  exists c r, num_to_str n = String c r /\ c <> "M"%char.
Proof.
  unfold num_to_str. destruct n as [| p | p]; cbn.
  - do 2 eexists. split; [reflexivity | discriminate].
  - destruct (Pos.to_uint p); cbn; do 2 eexists; (split; [reflexivity | discriminate]).
  - do 2 eexists. split; [reflexivity | discriminate].
Qed.

(** [strIvl] writes the number before the quality. *)
Lemma strIvl_number_first (p : pitch) (q : string) :
  strIvl p <> VStr (String "M" q).
Proof.
  unfold strIvl. destruct (isIvlPitch p); [|discriminate].
  cbv zeta.
  destruct (num_to_str_head (num_of (dir (decode p)) * calcNum (decode p)))
    as (c & r & E & Hc).
  rewrite E. cbn [append]. intros [= E']. exact (Hc E').
Qed.

(** Whatever the interval grammar accepts, [simplify] returns no name that
    starts with the quality. *)
Lemma simplify_never_quality_first (v : value) (q : string) :
  simplify v <> Some (VStr (String "M" q)).
Proof.
  assert (R : forall p : option pitch,
             match p with
             | Some i =>
                 option_map toIvlStr
                   match i with
                   | IvlP f _ d =>
                       Some (VPitch (ivlPitch f
                         (- d * (idx FIFTH_OCTS (decodeStep (d * f))
                                 + 4 * decodeAlt (d * f))) (Some d)))
                   | _ => None
                   end
             | None => Some VNull
             end <> Some (VStr (String "M" q))).
  { intros [[f | f o | f o d] |]; cbn [option_map]; try discriminate.
    unfold toIvlStr, to_notation.
    generalize (strIvl_number_first (ivlPitch f
      (- d * (idx FIFTH_OCTS (decodeStep (d * f)) + 4 * decodeAlt (d * f)))
      (Some d)) q).
    generalize (strIvl (ivlPitch f
      (- d * (idx FIFTH_OCTS (decodeStep (d * f)) + 4 * decodeAlt (d * f)))
      (Some d))).
    intros x N [= E]. exact (N E). }
  unfold simplify, ivlFn, pitchOp.
  destruct v as [| | b | n | s | p]; try apply R.
  destruct p; discriminate.
Qed.

(** C9 as stated fails: the major ninth simplifies to the major second,
    which [strIvl] writes ['2M'], not ['M2']. *)
Lemma simplify_M9_number_first :
  simplify (VStr "M9") = Some (VStr "2M") /\
  simplify (VStr "M9") <> Some (VStr "M2").
Proof. split; [reflexivity | vm_compute; discriminate]. Qed.

(** ** Chroma *)

(** C10: the chroma of a pitch array of any variant is
    7 * fifths - 12 * floor(7 * fifths / 12), which lies in 0..11; C#4 and
    Db4 have the same chroma. *)
Theorem chroma_range (p : pitch) :
  chroma (VPitch p) = Some (VNum (7 * fifths p - 12 * ((7 * fifths p) / 12))) /\
  0 <= 7 * fifths p - 12 * ((7 * fifths p) / 12) <= 11 /\
  chroma (VStr "C#4") = chroma (VStr "Db4").
Proof.
  split; [|split; [|reflexivity]].
  - unfold chroma, pitchFn, pitchOp, fOcts.
    rewrite (Z.mul_comm (fifths p) 7). reflexivity.
  - Z.to_euclidean_division_equations. lia.
Qed.

(** * Further properties *)

(** ** Decoding, and encoding what was decoded *)

Lemma unaltered_range (f : Z) : 0 <= unaltered f <= 6.
Proof. rewrite unaltered_mod. Z.to_euclidean_division_equations. lia. Qed.

Lemma FIFTHS_STEPS (r : Z) : 0 <= r <= 6 -> idx FIFTHS (idx STEPS r) = r - 1.
Proof. intros H. each_step H; reflexivity. Qed.

Lemma encPC_decode (f : Z) : encPC (decodeStep f) (decodeAlt f) = f.
Proof.
  unfold encPC, decodeStep, decodeAlt.
  rewrite FIFTHS_STEPS by apply unaltered_range.
  rewrite unaltered_mod. Z.to_euclidean_division_equations. lia.
Qed.

(** X1: whatever the fifths, negative ones too, the decoded step is a
    letter index 0..6, the fifths are [FIFTHS[step] + 7 * alt], and the name
    gets one of the seven letters. *)
Theorem decode_step_letter (p : pitch) :
  0 <= step (decode p) <= 6 /\
  fifths p = idx FIFTHS (step (decode p)) + 7 * alt (decode p) /\
  In (toLetter (step (decode p))) ["C"; "D"; "E"; "F"; "G"; "A"; "B"].
Proof.
  assert (H : 0 <= step (decode p) <= 6) by apply decodeStep_range.
  split; [exact H|]. split.
  - symmetry. apply encPC_decode.
  - each_step H; cbn; tauto.
Qed.

(** X2: encoding the fields that [decode] returns gives the pitch back
    for a pitch class, a note pitch and an interval of direction 1; for the
    direction -1 it gives the fifths and octaves negated. *)
Theorem encode_decode (p : pitch) :
  encode (step (decode p)) (alt (decode p)) (oct (decode p)) (dir (decode p))
  = Some (reencoded p) /\
  (forall f, reencoded (PC f) = PC f) /\
  (forall f o, reencoded (NoteP f o) = NoteP f o) /\
  (forall f o, reencoded (IvlP f o 1) = IvlP f o 1) /\
  (forall f o, reencoded (IvlP f o (-1)) = IvlP (- f) (- o) (-1)).
Proof.
  split.
  - unfold encode, decode. cbn [step alt oct dir].
    rewrite valid_step_guard by apply decodeStep_range. cbv zeta.
    rewrite encPC_decode.
    destruct p as [f | f o | f o d]; cbn [fifths dir_or_null reencoded].
    + reflexivity.
    + unfold noteArr, encOct. do 2 f_equal. lia.
    + destruct (d =? 0) eqn:E.
      * unfold noteArr, encOct. do 2 f_equal. lia.
      * unfold ivlPitch, encOct, encDir.
        destruct (d <? 0); cbn [Z.eqb]; do 2 f_equal; lia.
  - repeat split; intros; cbn [reencoded Z.eqb Pos.eqb]; unfold encDir;
      cbn [Z.ltb Z.compare]; f_equal; lia.
Qed.

(** ** Names *)

Lemma toLetter_head (s : Z) :
  exists c r, toLetter s = String c r /\ c <> "t"%char.
Proof.
  unfold toLetter. destruct (Z.rem s 7 <? 0).
  - do 2 eexists. split; [reflexivity | discriminate].
  - destruct (Z.to_nat (Z.rem s 7)) as [| [| [| [| [| [| [| n]]]]]]]; cbn;
      do 2 eexists; (split; [reflexivity | discriminate]).
Qed.

Lemma num_to_str_first (n : Z) :
  exists c r, num_to_str n = String c r /\ c <> "t"%char.
Proof.
  unfold num_to_str. destruct n as [| p | p]; cbn.
  - do 2 eexists. split; [reflexivity | discriminate].
  - destruct (Pos.to_uint p); cbn; do 2 eexists; (split; [reflexivity | discriminate]).
  - do 2 eexists. split; [reflexivity | discriminate].
Qed.

Lemma strPitch_head (p : pitch) :
  exists c r, strPitch p = VStr (String c r) /\ c <> "t"%char.
Proof.
  unfold strPitch, strNote, strIvl.
  destruct (no_dir p) eqn:N.
  - cbv zeta. destruct (toLetter_head (step (decode p))) as (c & r & E & Hc).
    rewrite E. cbn [append]. do 2 eexists. split; [reflexivity | exact Hc].
  - destruct p as [f | f o | f o d]; try discriminate N. cbn [isIvlPitch]. cbv zeta.
    destruct (num_to_str_first
                (num_of (dir (decode (IvlP f o d))) * calcNum (decode (IvlP f o d))))
      as (c & r & E & Hc).
    rewrite E. cbn [append]. do 2 eexists. split; [reflexivity | exact Hc].
Qed.

(** X3: every pitch array has a name: [strPitch] never returns [null]
    nor an empty string.  [strNote] returns [null] exactly on a pitch with a
    direction other than zero, and [strIvl] exactly on a pitch that is not
    an interval. *)
Theorem strPitch_total (p : pitch) :
  is_string (strPitch p) = true /\
  is_null (strNote p) = negb (no_dir p) /\
  is_null (strIvl p) = negb (isIvlPitch p).
Proof.
  split; [|split].
  - destruct (strPitch_head p) as (c & r & E & _). rewrite E. reflexivity.
  - unfold strNote. destruct (no_dir p); reflexivity.
  - unfold strIvl. destruct (isIvlPitch p); reflexivity.
Qed.

(** ** Transposition *)

Lemma transpose_pitch_comm (pa pb : option pitch) :
  transpose_pitch pa pb = transpose_pitch pb pa.
Proof.
  destruct pa as [[fa | fa oa | fa oa da] |], pb as [[fb | fb ob | fb ob db] |];
    cbn [transpose_pitch trBy]; try reflexivity.
  rewrite (Z.add_comm fa fb), (Z.add_comm oa ob). reflexivity.
Qed.

(** X4: [transpose] does not depend on the order of its two arguments,
    whatever they are: names, pitch arrays or values that do not parse. *)
Theorem transpose_comm (a b : value) : transpose a b = transpose b a.
Proof. unfold transpose. cbv zeta. rewrite transpose_pitch_comm. reflexivity. Qed.

(** X5: on two pitches [transpose] has no result exactly when neither is
    an interval; otherwise the result adds the fifths, and it has the shape
    of the pitch that is moved: of the one that is not an interval, or an
    interval when both are. *)
Theorem transpose_pitch_shape (a b : pitch) :
  match transpose_pitch (Some a) (Some b) with
  | None => isIvlPitch a = false /\ isIvlPitch b = false
  | Some r =>
      isIvlPitch a || isIvlPitch b = true /\
      fifths r = fifths a + fifths b /\
      arr_length r = (if isIvlPitch a then arr_length b else arr_length a)
  end.
Proof.
  destruct a as [fa | fa oa | fa oa da], b as [fb | fb ob | fb ob db];
    cbn; repeat split; lia.
Qed.

(** X6: transposing by one interval and then by another is transposing
    by the two intervals transposed by one another. *)
Theorem transpose_pitch_assoc (fi oi di fj oj dj : Z) (p : pitch) :
  transpose_pitch (Some (IvlP fj oj dj))
                  (transpose_pitch (Some (IvlP fi oi di)) (Some p))
  = transpose_pitch (transpose_pitch (Some (IvlP fi oi di)) (Some (IvlP fj oj dj)))
                    (Some p).
Proof.
  destruct p as [f | f o | f o d]; cbn [transpose_pitch trBy].
  - f_equal. f_equal. lia.
  - f_equal. f_equal; lia.
  - replace (fj + (fi + f)) with (fi + fj + f) by lia.
    replace (oj + (oi + o)) with (oi + oj + o) by lia.
    reflexivity.
Qed.

(** X7: the distance from a pitch to that pitch transposed by an interval
    is the interval with the same fifths and octaves, its direction
    recomputed; from a pitch class it is the ascending interval with those
    fifths within one octave. *)
Theorem distance_of_transposed (a : pitch) (fi oi di : Z) :
  exists r,
    transpose_pitch (Some a) (Some (IvlP fi oi di)) = Some r /\
    substr (Some a) (Some r)
    = Ok (Some (match a with
                | PC _ => IvlP fi (- fOcts fi) 1
                | _ => redirect (IvlP fi oi di)
                end)).
Proof.
  destruct a as [f | f o | f o d]; eexists; (split; [reflexivity|]);
    cbn [substr arr_length Z.eqb Pos.eqb negb ivlPitch redirect].
  - replace (fi + f - f) with fi by lia. reflexivity.
  - replace (fi + f - f) with fi by lia.
    replace (oi + o - o) with oi by lia. reflexivity.
  - replace (f + fi - f) with fi by lia.
    replace (o + oi - o) with oi by lia. reflexivity.
Qed.

(** ** Heights *)

Lemma midi_note_pitch (f o : Z) :
  midi (VPitch (NoteP f o)) = VNum (f * 7 + 12 * o + 12).
Proof. reflexivity. Qed.

Lemma semitones_interval (f o d : Z) :
  semitones (VPitch (IvlP f o d)) = Some (VNum (f * 7 + 12 * o)).
Proof. reflexivity. Qed.

Lemma chroma_pitch (p : pitch) :
  chroma (VPitch p) = Some (VNum (7 * fifths p - 12 * fOcts (fifths p))).
Proof. reflexivity. Qed.

(** X8: transposing a note pitch by an interval gives a note pitch whose
    midi number is that of the note plus the semitones of the interval. *)
Theorem midi_of_transposed (f o fi oi di : Z) :
  exists r m st,
    transpose_pitch (Some (NoteP f o)) (Some (IvlP fi oi di)) = Some r /\
    isNotePitch r = true /\
    midi (VPitch (NoteP f o)) = VNum m /\
    semitones (VPitch (IvlP fi oi di)) = Some (VNum st) /\
    midi (VPitch r) = VNum (m + st).
Proof.
  exists (NoteP (fi + f) (oi + o)), (f * 7 + 12 * o + 12), (fi * 7 + 12 * oi).
  repeat split. rewrite midi_note_pitch. f_equal. lia.
Qed.

(** X9: the distance between two note pitches has as many semitones as
    their midi numbers differ, and it descends exactly when the second
    note is the lower one. *)
Theorem distance_semitones (fa oa fb ob : Z) :
  exists f o d ma mb,
    substr (Some (NoteP fa oa)) (Some (NoteP fb ob)) = Ok (Some (IvlP f o d)) /\
    midi (VPitch (NoteP fa oa)) = VNum ma /\
    midi (VPitch (NoteP fb ob)) = VNum mb /\
    semitones (VPitch (IvlP f o d)) = Some (VNum (mb - ma)) /\
    d = (if mb <? ma then -1 else 1).
Proof.
  exists (fb - fa), (ob - oa), (calcDir (fb - fa) (ob - oa)),
         (fa * 7 + 12 * oa + 12), (fb * 7 + 12 * ob + 12).
  repeat split.
  - rewrite semitones_interval. do 2 f_equal. lia.
  - unfold calcDir, encDir.
    replace (7 * (fb - fa) + 12 * (ob - oa))
      with (fb * 7 + 12 * ob + 12 - (fa * 7 + 12 * oa + 12)) by lia.
    destruct (Z.ltb_spec (fb * 7 + 12 * ob + 12 - (fa * 7 + 12 * oa + 12)) 0),
             (Z.ltb_spec (fb * 7 + 12 * ob + 12) (fa * 7 + 12 * oa + 12));
      try reflexivity; lia.
Qed.

(** X10: the distance between two pitch classes has between 0 and 11
    semitones: the chroma of the second less the chroma of the first,
    modulo 12; so its direction 1 is the direction of its height. *)
Theorem distance_pitch_classes_semitones (fa fb : Z) :
  exists i ca cb h,
    substr (Some (PC fa)) (Some (PC fb)) = Ok (Some i) /\
    chroma (VPitch (PC fa)) = Some (VNum ca) /\
    chroma (VPitch (PC fb)) = Some (VNum cb) /\
    semitones (VPitch i) = Some (VNum h) /\
    h = (cb - ca) mod 12 /\
    0 <= h <= 11 /\
    dir_agrees i = true.
Proof.
  exists (IvlP (fb - fa) (- fOcts (fb - fa)) 1),
         (7 * fa - 12 * fOcts fa), (7 * fb - 12 * fOcts fb),
         ((fb - fa) * 7 + 12 * - fOcts (fb - fa)).
  repeat split.
  - unfold fOcts. Z.to_euclidean_division_equations. lia.
  - unfold fOcts. Z.to_euclidean_division_equations. lia.
  - unfold fOcts. Z.to_euclidean_division_equations. lia.
  - cbn [dir_agrees]. unfold calcDir, encDir, fOcts.
    destruct (Z.ltb_spec (7 * (fb - fa) + 12 * - ((fb - fa) * 7 / 12)) 0);
      [|reflexivity].
    exfalso. Z.to_euclidean_division_equations. lia.
Qed.

(** X11: the height [sort] compares by: a pitch class gets its chroma
    less 120, between -120 and -109; a pitch with octave gets its height;
    [null] gets [-Infinity]. *)
Theorem objHeight_bands (f o : Z) :
  (exists c,
     chroma (VPitch (PC f)) = Some (VNum c) /\
     objHeight (Some (PC f)) = Height (c - 120) /\
     -120 <= c - 120 <= -109) /\
  (exists h,
     height (NoteP f o) = Some h /\
     objHeight (Some (NoteP f o)) = Height h) /\
  objHeight None = NegInfinity.
Proof.
  split; [|split; [|reflexivity]].
  - exists (7 * f - 12 * fOcts f). split; [reflexivity|].
    unfold objHeight, fOcts. cbn [fifths]. split.
    + f_equal. Z.to_euclidean_division_equations. lia.
    + Z.to_euclidean_division_equations. lia.
  - exists (f * 7 + 12 * o). split; [reflexivity|].
    unfold objHeight. cbn [fifths]. f_equal. lia.
Qed.

(** ** Simplified intervals *)

(** X12: on an interval with a direction other than zero [simplify] keeps
    the fifths and the direction, gives octaves that do not depend on the
    octaves it was given, and applied again changes nothing. *)
Theorem simplify_idempotent (f o o' d : Z) :
  d <> 0 ->
  exists so,
    simplify (VPitch (IvlP f o d)) = Some (VPitch (IvlP f so d)) /\
    simplify (VPitch (IvlP f o' d)) = Some (VPitch (IvlP f so d)) /\
    simplify (VPitch (IvlP f so d)) = Some (VPitch (IvlP f so d)).
Proof.
  intros Hd. apply Z.eqb_neq in Hd.
  exists (- d * (idx FIFTH_OCTS (decodeStep (d * f)) + 4 * decodeAlt (d * f))).
  rewrite !simplify_interval. unfold ivlPitch. rewrite Hd. repeat split.
Qed.

Lemma simplify_idempotent_witness :
  exists so,
    simplify (VPitch (IvlP 2 0 1)) = Some (VPitch (IvlP 2 so 1)) /\
    simplify (VPitch (IvlP 2 5 1)) = Some (VPitch (IvlP 2 so 1)) /\
    simplify (VPitch (IvlP 2 so 1)) = Some (VPitch (IvlP 2 so 1)).
Proof. apply (simplify_idempotent 2 0 5 1). discriminate. Defined.

Lemma semitones_encoded (s a o d : Z) :
  0 <= s <= 6 ->
  (d * encPC s a) * 7 + 12 * (d * encOct s a o)
  = d * (idx SEMITONES s + a + 12 * o).
Proof.
  intros H. pose proof (height_encoded s H a o) as E. nia.
Qed.

(** X13: for the interval encoded from (step, alt, oct, dir), [semitones]
    is dir * (SEMITONES[step] + alt + 12 * oct); [simplify] leaves
    dir * (SEMITONES[step] + alt); and [simplifyAsc] gives an interval of
    direction 1 with SEMITONES[step] + alt semitones when dir is 1 and with
    12 less that many when dir is -1. *)
Theorem semitones_of_encoded (s a o d : Z) :
  0 <= s <= 6 -> d = 1 \/ d = -1 ->
  exists p q r,
    encode s a (Some o) (Some d) = Some p /\
    semitones (VPitch p) = Some (VNum (d * (idx SEMITONES s + a + 12 * o))) /\
    simplify (VPitch p) = Some (VPitch q) /\
    semitones (VPitch q) = Some (VNum (d * (idx SEMITONES s + a))) /\
    simplifyAsc (VPitch p) = Some (VPitch r) /\
    dir_or_null r = Some 1 /\
    semitones (VPitch r)
    = Some (VNum (if d =? 1 then idx SEMITONES s + a
                  else 12 - (idx SEMITONES s + a))).
Proof.
  intros H Hd.
  assert (S : simplify (VPitch (IvlP (d * encPC s a) (d * encOct s a o) d))
              = Some (VPitch (IvlP (d * encPC s a) (d * encOct s a 0) d))).
  { rewrite simplify_interval.
    replace (d * (d * encPC s a)) with (encPC s a) by (destruct Hd as [-> | ->]; lia).
    rewrite decodeAlt_encPC, decodeStep_encPC by assumption.
    unfold ivlPitch, encOct.
    destruct Hd as [-> | ->]; cbn [Z.eqb]; do 3 f_equal; lia. }
  exists (IvlP (d * encPC s a) (d * encOct s a o) d),
         (IvlP (d * encPC s a) (d * encOct s a 0) d),
         (if d =? 1 then IvlP (d * encPC s a) (d * encOct s a 0) d
          else IvlP (d * encPC s a) (d * encOct s a 0 + 1) 1).
  split; [apply encode_interval; assumption|].
  split; [rewrite semitones_interval, semitones_encoded by assumption; reflexivity|].
  split; [exact S|].
  split; [rewrite semitones_interval, semitones_encoded by assumption;
          do 2 f_equal; lia|].
  split.
  { unfold simplifyAsc, ivlFn, pitchOp. rewrite S.
    destruct Hd as [-> | ->]; reflexivity. }
  pose proof (semitones_encoded s a 0 d H) as E.
  destruct Hd as [-> | ->]; cbn [Z.eqb Pos.eqb dir_or_null];
    (split; [reflexivity|]); rewrite semitones_interval; do 2 f_equal; lia.
Qed.

Lemma semitones_of_encoded_witness :
  exists p q r,
    encode 1 0 (Some 1) (Some (-1)) = Some p /\
    semitones (VPitch p) = Some (VNum (-14)) /\
    simplify (VPitch p) = Some (VPitch q) /\
    semitones (VPitch q) = Some (VNum (-2)) /\
    simplifyAsc (VPitch p) = Some (VPitch r) /\
    dir_or_null r = Some 1 /\
    semitones (VPitch r) = Some (VNum 10).
Proof. apply (semitones_of_encoded 1 0 1 (-1)); [lia | right; reflexivity]. Defined.

(** X14: for the interval encoded from (step, alt, oct, dir), [number]
    is step + 1 + 7 * oct in both directions, while [simpleNum] is step + 1
    only when dir is 1: when dir is -1 it is the number of the inverted
    step, (7 - step) mod 7 + 1. *)
Theorem number_and_simpleNum (s a o d : Z) :
  0 <= s <= 6 -> d = 1 \/ d = -1 ->
  exists p,
    encode s a (Some o) (Some d) = Some p /\
    number (VPitch p) = Some (VNum (s + 1 + 7 * o)) /\
    simpleNum (VPitch p)
    = Some (VNum (if d =? 1 then s + 1 else (7 - s) mod 7 + 1)).
Proof.
  intros H Hd. eexists. split; [apply encode_interval; assumption|].
  unfold number, simpleNum, ivlFn, pitchOp.
  destruct Hd as [-> | ->].
  - rewrite decode_ascending by assumption. split; reflexivity.
  - rewrite decode_descending by assumption. cbn [step Z.eqb]. split; [|reflexivity].
    do 2 f_equal. unfold calcNum. cbn [isAsc dir step oct num_of Z.eqb].
    unfold desc_oct, desc_step.
    each_step H; vm_compute ((7 - _) mod 7); cbn [Z.eqb]; lia.
Qed.

Lemma number_and_simpleNum_witness :
  exists p,
    encode 1 0 (Some 0) (Some (-1)) = Some p /\
    number (VPitch p) = Some (VNum 2) /\
    simpleNum (VPitch p) = Some (VNum 7).
Proof. apply (number_and_simpleNum 1 0 0 (-1)); [lia | right; reflexivity]. Defined.

(** ** Ranges *)

Local Open Scope list_scope.

Lemma js_set_empty (k : nat) (v : Z) :
  js_set [] k v = repeat None k ++ [Some v].
Proof. induction k as [| k IH]; cbn; [reflexivity | rewrite IH; reflexivity]. Qed.

Lemma js_set_hole (k : nat) (v : Z) (l : list (option Z)) :
  js_set (repeat None (S k) ++ l) k v = repeat None k ++ Some v :: l.
Proof.
  induction k as [| k IH]; [reflexivity|].
  change (repeat None (S (S k)) ++ l) with (None :: (repeat (@None Z) (S k) ++ l)).
  cbn [js_set]. rewrite IH. reflexivity.
Qed.

(** The loops fill the holes from the top index down. *)
Lemma ascR_loop_filled (b : Z) (k : nat) (l : list (option Z)) :
  ascR_loop b k (repeat None k ++ l)
  = map (fun i => Some (Z.of_nat i + b)) (seq 0 k) ++ l.
Proof.
  revert l. induction k as [| k IH]; intros l; [reflexivity|].
  cbn [ascR_loop]. rewrite js_set_hole, IH, seq_S, map_app, <- app_assoc.
  reflexivity.
Qed.

Lemma descR_loop_filled (b : Z) (k : nat) (l : list (option Z)) :
  descR_loop b k (repeat None k ++ l)
  = map (fun i => Some (b - Z.of_nat i)) (seq 0 k) ++ l.
Proof.
  revert l. induction k as [| k IH]; intros l; [reflexivity|].
  cbn [descR_loop]. rewrite js_set_hole, IH, seq_S, map_app, <- app_assoc.
  reflexivity.
Qed.

Lemma ascR_upfrom (b n : Z) :
  0 <= n -> ascR b n = Some (map Some (upfrom b (Z.to_nat n))).
Proof.
  intros H. unfold ascR, upfrom.
  destruct (Z.ltb_spec n 0) as [L | _]; [lia|]. f_equal.
  rewrite map_map.
  destruct (Z.to_nat n) as [| k]; [reflexivity|].
  cbn [ascR_loop]. rewrite js_set_empty, ascR_loop_filled, seq_S, map_app.
  cbn [map Nat.add]. f_equal; [|rewrite Z.add_comm; reflexivity].
  apply map_ext. intros i. rewrite Z.add_comm. reflexivity.
Qed.

Lemma descR_downfrom (b n : Z) :
  0 <= n -> descR b n = Some (map Some (downfrom b (Z.to_nat n))).
Proof.
  intros H. unfold descR, downfrom.
  destruct (Z.ltb_spec n 0) as [L | _]; [lia|]. f_equal.
  rewrite map_map.
  destruct (Z.to_nat n) as [| k]; [reflexivity|].
  cbn [descR_loop]. rewrite js_set_empty, descR_loop_filled, seq_S, map_app.
  reflexivity.
Qed.

Lemma range_fromto (a b : Z) :
  range (VNum a) (VNum b) = Some (map Some (fromto a b)).
Proof.
  unfold range, fromto. cbn [num_or_midi].
  destruct (Z.ltb_spec a b).
  - apply ascR_upfrom. lia.
  - apply descR_downfrom. lia.
Qed.

Lemma upfrom_snoc (a : Z) (n : nat) :
  upfrom a (S n) = upfrom a n ++ [a + Z.of_nat n].
Proof. unfold upfrom. rewrite seq_S, map_app. reflexivity. Qed.

Lemma downfrom_cons (b : Z) (n : nat) :
  downfrom b (S n) = b :: downfrom (b - 1) n.
Proof.
  unfold downfrom. cbn [seq map]. f_equal; [cbn; lia|].
  rewrite <- seq_shift, map_map. apply map_ext. intros i. lia.
Qed.

Lemma rev_upfrom (a : Z) (n : nat) :
  rev (upfrom a n) = downfrom (a + Z.of_nat n - 1) n.
Proof.
  induction n as [| n IH]; [reflexivity|].
  rewrite upfrom_snoc, rev_app_distr, IH, downfrom_cons.
  cbn [rev app]. f_equal; [lia|]. f_equal. lia.
Qed.

Lemma fromto_rev (a b : Z) : fromto b a = rev (fromto a b).
Proof.
  unfold fromto.
  destruct (Z.ltb_spec a b), (Z.ltb_spec b a); try lia; cbv iota.
  - rewrite rev_upfrom. f_equal. lia.
  - replace (downfrom a (Z.to_nat (a - b + 1)))
      with (rev (upfrom b (Z.to_nat (a - b + 1))))
      by (rewrite rev_upfrom; f_equal; lia).
    rewrite rev_involutive. reflexivity.
  - assert (a = b) by lia. subst b.
    replace (a - a + 1) with 1 by lia. reflexivity.
Qed.

Lemma fromto_length (a b : Z) :
  List.length (fromto a b) = Z.to_nat (Z.abs (b - a) + 1).
Proof.
  unfold fromto, upfrom, downfrom.
  destruct (Z.ltb_spec a b); rewrite length_map, length_seq; lia.
Qed.

(** X15: between two numbers [range] gives the numbers from the first to
    the second, both included, going up by one when the first is smaller and
    down by one otherwise: |b - a| + 1 entries, the one at index i being
    a + i or a - i, and [range(b, a)] is [range(a, b)] reversed. *)
Theorem range_numbers (a b : Z) :
  range (VNum a) (VNum b) = Some (map Some (fromto a b)) /\
  List.length (fromto a b) = Z.to_nat (Z.abs (b - a) + 1) /\
  fromto a b
  = map (fun i => if a <? b then a + Z.of_nat i else a - Z.of_nat i)
        (seq 0 (Z.to_nat (Z.abs (b - a) + 1))) /\
  range (VNum b) (VNum a) = Some (map Some (rev (fromto a b))).
Proof.
  split; [apply range_fromto|].
  split; [apply fromto_length|].
  split.
  - unfold fromto, upfrom, downfrom.
    destruct (Z.ltb_spec a b); do 2 f_equal; lia.
  - rewrite range_fromto, fromto_rev. reflexivity.
Qed.

(** X16: for arguments that are not strings, or are strings
    [decimal_or_text] accepts, [range] returns: the ends are then integers
    or [null], so the loops of [ascR] and [descR] are entered with a count
    of at least 1 and end; the array has no hole; and it is empty when an
    end is [null]. *)
Theorem range_returns (a b : value) :
  in_model a = true -> in_model b = true ->
  (exists l, range a b = Some (map Some l)) /\
  range VNull b = Some [] /\
  range a VNull = Some [].
Proof.
  intros _ _. split; [|split].
  - unfold range.
    destruct (num_or_midi a) as [ma |]; [|exists []; reflexivity].
    destruct (num_or_midi b) as [mb |]; [|exists []; reflexivity].
    destruct (Z.ltb_spec ma mb).
    + eexists. apply ascR_upfrom. lia.
    + eexists. apply descR_downfrom. lia.
  - reflexivity.
  - unfold range. destruct (num_or_midi a); reflexivity.
Qed.

Lemma range_returns_witness :
  (exists l, range (VStr "60") (VNum 62) = Some (map Some l)) /\
  range VNull (VNum 62) = Some [] /\
  range (VStr "60") VNull = Some [].
Proof. apply (range_returns (VStr "60") (VNum 62)); reflexivity. Defined.

Lemma fromMidi_name (m : Z) : 0 <= m -> exists n, fromMidi m = Some n.
Proof.
  intros H. unfold fromMidi. cbv zeta.
  assert (R : 0 <= Z.rem m 12 < 12) by (apply Z.rem_bound_pos; lia).
  destruct (Z.ltb_spec (Z.rem m 12) 0) as [L | _]; [lia|].
  destruct (nth_error PCS (Z.to_nat (Z.rem m 12))) as [pc |] eqn:E.
  - eexists. reflexivity.
  - apply nth_error_None in E. cbn [List.length PCS] in E. lia.
Qed.

Lemma fromto_bounds (a b m : Z) :
  In m (fromto a b) -> Z.min a b <= m <= Z.max a b.
Proof.
  unfold fromto, upfrom, downfrom.
  destruct (Z.ltb_spec a b); intros I; apply in_map_iff in I;
    destruct I as (i & <- & I); apply in_seq in I; lia.
Qed.

Lemma map_filter_null_names (l : list Z) :
  Forall (fun m => 0 <= m) l ->
  exists names,
    map fromMidi l = map Some names /\
    map_filter_null (fun m => option_map VStr (fromMidi m)) (map Some l)
    = Some (map VStr names).
Proof.
  induction 1 as [| m l Hm _ (names & E1 & E2)]; [exists []; split; reflexivity|].
  destruct (fromMidi_name m Hm) as (n & En).
  exists (n :: names). cbn [map map_filter_null]. rewrite En, E1, E2.
  split; reflexivity.
Qed.

(** X17: between two numbers that are not negative [chromatic] gives the
    name [fromMidi] has for each number of the range, in order; no entry is
    dropped. *)
Theorem chromatic_numbers (a b : Z) :
  0 <= a -> 0 <= b ->
  exists names,
    map fromMidi (fromto a b) = map Some names /\
    chromatic (VNum a) (VNum b) = Some (map VStr names) /\
    List.length names = Z.to_nat (Z.abs (b - a) + 1).
Proof.
  intros Ha Hb.
  destruct (map_filter_null_names (fromto a b)) as (names & E1 & E2).
  { apply Forall_forall. intros m I. apply fromto_bounds in I. lia. }
  exists names. split; [exact E1|]. split.
  - unfold chromatic, noteRange. rewrite range_fromto. exact E2.
  - rewrite <- fromto_length.
    rewrite <- (length_map Some names), <- E1, length_map. reflexivity.
Qed.

Lemma chromatic_numbers_witness :
  exists names,
    map fromMidi (fromto 36 40) = map Some names /\
    chromatic (VNum 36) (VNum 40) = Some (map VStr names) /\
    List.length names = Z.to_nat (Z.abs (40 - 36) + 1).
Proof. apply (chromatic_numbers 36 40); lia. Defined.

(** ** Harmonizing a list *)

Lemma transpose_null_or_name (a b : value) :
  transpose a b = VNull \/
  exists c r, transpose a b = VStr (String c r) /\ c <> "t"%char.
Proof.
  unfold transpose. cbv zeta.
  destruct (transpose_pitch (asPitch a) (asPitch b)) as [p |]; [right | left; reflexivity].
  apply strPitch_head.
Qed.

Lemma transpose_parsed (a v : value) :
  transpose a (to_value (asPitch v)) = transpose a v.
Proof.
  unfold transpose. cbv zeta.
  replace (asPitch (to_value (asPitch v))) with (asPitch v); [reflexivity|].
  destruct (asPitch v); reflexivity.
Qed.

Lemma not_read_as_pitch (A : Type) (l : list value) (x : A) :
  Forall (fun v => exists c r, v = VStr (String c r) /\ c <> "t"%char) l ->
  match l with
  | VStr "tnl" :: _ => None
  | _ => Some x
  end = Some x.
Proof.
  intros H. destruct l as [| v l]; [reflexivity|].
  inversion H as [| ? ? (c & r & -> & Hc) _]; subst.
  destruct c as [[] [] [] [] [] [] [] []]; try reflexivity.
  exfalso. apply Hc. reflexivity.
Qed.

(** X18: on an array, [harmonizer] returns the names [transpose] gives
    for the entries, in order, without those for which it gives [null]: no
    entry of the result is [null] or empty, and there are at most as many
    as in the array.  A missing pitch stands for the unison ['P1']. *)
Theorem harmonizer_transposes (src : list value) (pitch : value) :
  let shift := if truthy pitch then pitch else VStr "P1" in
  let names := filter (fun v => negb (is_null v)) (map (transpose shift) src) in
  harmonizer src pitch = Some names /\
  forallb is_string names = true /\
  (List.length names <= List.length src)%nat.
Proof.
  cbv zeta.
  set (shift := if truthy pitch then pitch else VStr "P1").
  set (names := filter (fun v => negb (is_null v)) (map (transpose shift) src)).
  assert (N : Forall (fun v => exists c r, v = VStr (String c r) /\ c <> "t"%char) names).
  { apply Forall_forall. intros v Hv. apply filter_In in Hv. destruct Hv as [Hv Hn].
    apply in_map_iff in Hv. destruct Hv as (x & <- & _).
    destruct (transpose_null_or_name shift x) as [E | E]; [|exact E].
    rewrite E in Hn. discriminate Hn. }
  assert (R : filter truthy (map (transpose shift)
                (map (fun v => to_value (asPitch v)) src)) = names).
  { rewrite map_map. unfold names.
    rewrite (map_ext _ (transpose shift)) by (intros v; apply transpose_parsed).
    apply filter_ext_in. intros v Hv.
    apply in_map_iff in Hv. destruct Hv as (x & <- & _).
    destruct (transpose_null_or_name shift x) as [E | (c & r & E & _)];
      rewrite E; reflexivity. }
  split; [|split].
  - unfold harmonizer. cbv zeta. fold shift. rewrite R.
    rewrite (not_read_as_pitch _ names _ N). f_equal.
    clear R. induction N as [| v l (c & r & -> & _) _ IH]; [reflexivity|].
    cbn [map toPitchStr to_notation]. rewrite IH. reflexivity.
  - apply forallb_forall. intros v Hv.
    rewrite Forall_forall in N. destruct (N v Hv) as (c & r & -> & _). reflexivity.
  - unfold names. etransitivity; [apply filter_length_le|].
    rewrite length_map. reflexivity.
Qed.

(** ** Shapes and directions *)

(** X19: the chroma of a note pitch is its midi number modulo 12. *)
Theorem chroma_midi (f o : Z) :
  exists c m,
    chroma (VPitch (NoteP f o)) = Some (VNum c) /\
    midi (VPitch (NoteP f o)) = VNum m /\
    c = m mod 12.
Proof.
  exists (7 * f - 12 * fOcts f), (f * 7 + 12 * o + 12).
  repeat split. unfold fOcts. Z.to_euclidean_division_equations. lia.
Qed.

(** X20: on two pitch arrays [distance] does not throw; it returns [null]
    exactly when the two have different lengths, and otherwise an interval
    whose fifths are those of the second less those of the first and whose
    direction is 1 or -1. *)
Theorem distance_shape (a b : pitch) :
  match distance (VPitch a) (VPitch b) with
  | Ok VNull => arr_length a <> arr_length b
  | Ok (VPitch (IvlP f o d)) =>
      arr_length a = arr_length b /\
      f = fifths b - fifths a /\
      (d = 1 \/ d = -1)
  | _ => False
  end.
Proof.
  destruct a as [fa | fa oa | fa oa da], b as [fb | fb ob | fb ob db];
    cbn [distance asPitch as_notation substr arr_length Z.eqb Pos.eqb negb
         same_ref andb to_value ivlPitch fifths];
    try discriminate;
    (split; [reflexivity|]); (split; [reflexivity|]);
    try (left; reflexivity);
    unfold calcDir, encDir;
    match goal with |- context [?x <? 0] => destruct (x <? 0) end; auto.
Qed.

(** X21: an interval is encoded with direction -1 when the direction
    given is below zero and 1 otherwise, zero too; the fifths and octaves
    of the descending interval are those of the ascending one negated. *)
Theorem encode_direction (s a o d : Z) :
  0 <= s <= 6 ->
  exists f o',
    encode s a (Some o) (Some 1) = Some (IvlP f o' 1) /\
    encode s a (Some o) (Some (-1)) = Some (IvlP (- f) (- o') (-1)) /\
    encode s a (Some o) (Some d)
    = (if d <? 0 then Some (IvlP (- f) (- o') (-1)) else Some (IvlP f o' 1)).
Proof.
  intros H. exists (encPC s a), (encOct s a o).
  unfold encode. rewrite (valid_step_guard s H). cbv zeta.
  unfold ivlPitch, encDir. cbn [Z.ltb Z.compare Z.eqb].
  repeat split; try (destruct (d <? 0); cbn [Z.eqb]); do 2 f_equal; lia.
Qed.

Lemma encode_direction_witness :
  exists f o',
    encode 1 0 (Some 0) (Some 1) = Some (IvlP f o' 1) /\
    encode 1 0 (Some 0) (Some (-1)) = Some (IvlP (- f) (- o') (-1)) /\
    encode 1 0 (Some 0) (Some 0) = Some (IvlP f o' 1).
Proof. apply (encode_direction 1 0 0 0). lia. Defined.
